(** * String Analyzer Service: the analysis-and-query engine

    A shallow embedding of [analyzeString], [computeHash],
    [parseNaturalLanguage] and [applyFilters] (the helper module required by
    src/index.js), with the properties of the specification stated and
    proved over it.

    Data model.
    - A JavaScript string is its sequence of UTF-16 code units: [list N],
      each unit below 65536 ([JS.is_code_unit]).
    - A JavaScript number is a [Z]: every number the engine compares is an
      integer, and lengths and counts stay far below 2^53.
    - An object with optional fields is a record of [option]s; the
      frequency object, whose keys are data, is a [gmap]; a [Set] is a
      [gset]. *)

From Stdlib Require Import String Ascii.
From stdpp Require Import gmap list numbers.

Abbreviation jsstring := (list N).

(** ** The host's string operations *)

Module JS.

(** A string literal of the source, as code units (the literals of the
    helper module are all ASCII). *)
Definition lit (s : string) : jsstring :=
  map N_of_ascii (list_ascii_of_string s).

Definition is_code_unit (u : N) : Prop := (u < 65536)%N.

Definition in_range (lo hi u : N) : bool := ((lo <=? u) && (u <=? hi))%N.

(** *** Iteration by code point

    [for (const char of value)] and [new Set(value)] both run the string
    iterator: a leading surrogate followed by a trailing surrogate is one
    element of two code units, every other code unit (a lone surrogate
    too) is an element of its own. *)

Definition isLeadSurrogate : N → bool := in_range 0xD800 0xDBFF.
Definition isTrailSurrogate : N → bool := in_range 0xDC00 0xDFFF.

Fixpoint codePoints (s : jsstring) : list jsstring :=
  match s with
  | [] => []
  | u :: rest =>
      match rest with
      | v :: rest' =>
          if isLeadSurrogate u && isTrailSurrogate v
          then [u; v] :: codePoints rest'
          else [u] :: codePoints rest
      | [] => [[u]]
      end
  end.

(** [s] holds a surrogate pair: a leading surrogate with a trailing
    surrogate right after it. *)
Fixpoint hasSurrogatePair (s : jsstring) : bool :=
  match s with
  | [] => false
  | u :: rest =>
      match rest with
      | v :: _ =>
          (isLeadSurrogate u && isTrailSurrogate v) || hasSurrogatePair rest
      | [] => false
      end
  end.

(** [s.isWellFormed()]: no surrogate stands alone. *)
Definition isWellFormed (s : jsstring) : bool :=
  forallb (λ c, match c with
                | [u] => negb (isLeadSurrogate u || isTrailSurrogate u)
                | _ => true
                end)
          (codePoints s).

(** *** Case conversion

    [String.prototype.toLowerCase] follows the Unicode case tables. On a
    string of ASCII code units it turns A-Z into a-z and leaves the rest;
    what it does to a string with a code unit above 127 is left to the
    tables, which are a parameter of the development: every statement
    below holds whatever they are. *)

Class UnicodeTables := unicodeLower : jsstring → jsstring.

Definition isASCII (u : N) : bool := (u <? 128)%N.

Definition asciiLower (u : N) : N :=
  if in_range 65 90 u then (u + 32)%N else u.

Definition toLowerCase `{UnicodeTables} (s : jsstring) : jsstring :=
  if forallb isASCII s then map asciiLower s else unicodeLower s.

(** *** Character classes of the regular expressions *)

Definition isLowerAlpha : N → bool := in_range 97 122.   (* [a-z] *)
Definition isDigit : N → bool := in_range 48 57.         (* \d, [0-9] *)
Definition isAlnum (u : N) : bool := isLowerAlpha u || isDigit u.

(** WhiteSpace and LineTerminator of ECMAScript: what [trim] strips and
    what [\s] matches. *)
Definition isWhiteSpace (u : N) : bool :=
  in_range 0x09 0x0D u || (u =? 0x20)%N || (u =? 0xA0)%N ||
  (u =? 0x1680)%N || in_range 0x2000 0x200A u ||
  (u =? 0x2028)%N || (u =? 0x2029)%N || (u =? 0x202F)%N ||
  (u =? 0x205F)%N || (u =? 0x3000)%N || (u =? 0xFEFF)%N.

(** *** Searching *)

Fixpoint startsWith (s t : jsstring) : bool :=
  match t, s with
  | [], _ => true
  | _ :: _, [] => false
  | b :: t', a :: s' => (a =? b)%N && startsWith s' t'
  end.

(** [s.includes(t)]: [t] occurs in [s] at some position. *)
Fixpoint includes (s t : jsstring) : bool :=
  startsWith s t ||
  match s with
  | [] => false
  | _ :: s' => includes s' t
  end.

(** *** [replace(/[^a-z0-9]/g, '')]

    A global replace scans left to right; wherever the class matches, the
    (empty) replacement is emitted, elsewhere the code unit is copied. *)
Fixpoint replaceAll (matches : N → bool) (by_ : jsstring) (s : jsstring)
  : jsstring :=
  match s with
  | [] => []
  | u :: rest =>
      (if matches u then by_ else [u]) ++ replaceAll matches by_ rest
  end.

(** [split('')], [reverse()], [join('')] *)
Definition splitChars (s : jsstring) : list jsstring := map (λ u, [u]) s.
Definition reverse {A} (l : list A) : list A := rev l.
Definition join (l : list jsstring) : jsstring := concat l.

(** *** [trim()] *)
Fixpoint trimStart (s : jsstring) : jsstring :=
  match s with
  | [] => []
  | u :: rest => if isWhiteSpace u then trimStart rest else s
  end.

Definition trimEnd (s : jsstring) : jsstring := rev (trimStart (rev s)).

Definition trim (s : jsstring) : jsstring := trimEnd (trimStart s).

(** *** [split(/\s+/)]

    The split loop keeps the start [p] of the piece being read and a
    position [q]. Where the separator matches at [q], the piece read so
    far is pushed and reading resumes after the match, which is greedy:
    it takes the whole run of white space. [inMatch] says that [q] is
    still inside that run; [cur] is the piece [S[p..q)]. The piece open
    at the end of the string is pushed last, so the empty string splits
    into one empty piece. *)
Fixpoint splitLoop (inMatch : bool) (cur s : jsstring) : list jsstring :=
  match s with
  | [] => [cur]
  | u :: rest =>
      if isWhiteSpace u then
        if inMatch then splitLoop true [] rest
        else cur :: splitLoop true [] rest
      else splitLoop false (cur ++ [u]) rest
  end.

Definition splitWhiteSpace (s : jsstring) : list jsstring :=
  splitLoop false [] s.

(** *** Regular expressions

    The fragment the helper module uses: literals, a character class, a
    class repeated at least once (greedy), sequence, alternation, a greedy
    optional part and a capturing group. Non-capturing groups [(?: )] only
    bracket and are the tree structure itself. *)
Inductive regex :=
| Lit (l : jsstring)
| Class (p : N → bool)
| Plus (p : N → bool)
| Seq (r1 r2 : regex)
| Alt (r1 r2 : regex)
| Opt (r : regex)
| Group (r : regex).

(** The rest of a greedy [p+] after its first code unit: take one more
    where that lets the continuation succeed, give it back otherwise. *)
Fixpoint plusRest {R} (p : N → bool) (s : jsstring)
    (k : jsstring → option R) : option R :=
  match s with
  | u :: s' =>
      if p u then
        match plusRest p s' k with
        | Some m => Some m
        | None => k s
        end
      else k s
  | [] => k s
  end.

(** Backtracking matcher anchored at the head of [s]. The continuation
    [k] receives what is left of the input and the captures so far; a
    failure of [k] makes the matcher try its next alternative. *)
Fixpoint matchAt {R} (r : regex) (s : jsstring) (caps : list jsstring)
    (k : jsstring → list jsstring → option R) : option R :=
  match r with
  | Lit l => if startsWith s l then k (drop (length l) s) caps else None
  | Class p =>
      match s with
      | u :: s' => if p u then k s' caps else None
      | [] => None
      end
  | Plus p =>
      match s with
      | u :: s' => if p u then plusRest p s' (λ s'', k s'' caps) else None
      | [] => None
      end
  | Seq r1 r2 => matchAt r1 s caps (λ s' caps', matchAt r2 s' caps' k)
  | Alt r1 r2 =>
      match matchAt r1 s caps k with
      | Some m => Some m
      | None => matchAt r2 s caps k
      end
  | Opt r1 =>
      match matchAt r1 s caps k with
      | Some m => Some m
      | None => k s caps
      end
  | Group r1 =>
      matchAt r1 s caps
        (λ s' caps', k s' (caps' ++ [take (length s - length s') s]))
  end.

(** [s.match(r)] for a regular expression without the [g] flag: the
    leftmost match, as the array of the whole match followed by the
    captures, or [None] for [null]. *)
Fixpoint match_ (s : jsstring) (r : regex) : option (list jsstring) :=
  match matchAt r s []
          (λ s' caps, Some (take (length s - length s') s :: caps)) with
  | Some m => Some m
  | None =>
      match s with
      | [] => None
      | _ :: s' => match_ s' r
      end
  end.

(** [parseInt] of a run of decimal digits: its value. The argument is a
    capture of [\\d+], so the result is never [NaN]. The value is exact
    here; a JavaScript number rounds a numeral above 2^53, which no
    statement below looks at. *)
Definition parseInt (s : jsstring) : Z :=
  foldl (λ acc u, (acc * 10 + (Z.of_N u - 48))%Z) 0%Z s.

(** *** UTF-8

    A string handed to [hash.update] is hashed as its UTF-8 encoding:
    one to four bytes per code point, a lone surrogate being encoded as
    U+FFFD (EF BF BD). *)
Definition codePointValue (c : jsstring) : N :=
  match c with
  | [u] => if isLeadSurrogate u || isTrailSurrogate u then 0xFFFD else u
  | [hi; lo] => 0x10000 + (hi - 0xD800) * 0x400 + (lo - 0xDC00)
  | _ => 0xFFFD
  end%N.

Definition utf8Bytes (cp : N) : list N :=
  (if cp <? 0x80 then [cp]
   else if cp <? 0x800 then [0xC0 + cp / 64; 0x80 + cp mod 64]
   else if cp <? 0x10000 then
     [0xE0 + cp / 4096; 0x80 + (cp / 64) mod 64; 0x80 + cp mod 64]
   else
     [0xF0 + cp / 262144; 0x80 + (cp / 4096) mod 64;
      0x80 + (cp / 64) mod 64; 0x80 + cp mod 64])%N.

Definition utf8Encode (s : jsstring) : list N :=
  concat (map (λ c, utf8Bytes (codePointValue c)) (codePoints s)).

(** [a || 0] on a property read: [undefined] and [0] are falsy. *)
Definition orZero (o : option Z) : Z :=
  match o with
  | Some n => if (n =? 0)%Z then 0%Z else n
  | None => 0%Z
  end.

(** The SHA-256 digest of a byte sequence in lower-case hexadecimal,
    [crypto.createHash("sha256").update(bytes).digest("hex")]: the
    digest function is the crypto library's and is a parameter. *)
Class Sha256 := sha256_hex : list N → jsstring.

End JS.

(** ** Property records *)

Module Properties.
Record t := mk {
  length : Z;
  is_palindrome : bool;
  unique_characters : Z;
  word_count : Z;
  sha256_hash : jsstring;
  character_frequency_map : gmap jsstring Z;
}.
End Properties.

(** ** The analyzer *)

Section Analyzer.
Context `{JS.UnicodeTables} `{JS.Sha256}.

Definition computeHash (str : jsstring) : jsstring :=
  JS.sha256_hex (JS.utf8Encode str).

(** The loop over [value] that fills [character_frequency_map]. *)
Definition countChar (m : gmap jsstring Z) (char : jsstring)
  : gmap jsstring Z :=
  <[char := (JS.orZero (m !! char) + 1)%Z]> m.

Definition analyzeString (value : jsstring) : Properties.t :=
  let length := Z.of_nat (length value) in
  let cleanStr :=
    JS.replaceAll (λ u, negb (JS.isAlnum u)) [] (JS.toLowerCase value) in
  let is_palindrome :=
    bool_decide (cleanStr = JS.join (JS.reverse (JS.splitChars cleanStr))) in
  let unique_characters :=
    Z.of_nat (size (list_to_set (JS.codePoints value) : gset jsstring)) in
  let word_count :=
    Z.of_nat (List.length
      (List.filter (λ word, bool_decide (0 < List.length word))
                   (JS.splitWhiteSpace (JS.trim value)))) in
  let sha256_hash := computeHash value in
  let character_frequency_map := foldl countChar ∅ (JS.codePoints value) in
  {| Properties.length := length;
     Properties.is_palindrome := is_palindrome;
     Properties.unique_characters := unique_characters;
     Properties.word_count := word_count;
     Properties.sha256_hash := sha256_hash;
     Properties.character_frequency_map := character_frequency_map |}.

End Analyzer.

(** ** Filter criteria and stored records *)

Module Filters.
Record t := mk {
  is_palindrome : option bool;
  min_length : option Z;
  max_length : option Z;
  word_count : option Z;
  contains_character : option jsstring;
}.

(** [{}] *)
Definition empty : t := mk None None None None None.

(** Assignments [filters.field = v]. *)
Definition set_is_palindrome (v : bool) (f : t) : t :=
  mk (Some v) (min_length f) (max_length f) (word_count f)
     (contains_character f).
Definition set_min_length (v : Z) (f : t) : t :=
  mk (is_palindrome f) (Some v) (max_length f) (word_count f)
     (contains_character f).
Definition set_max_length (v : Z) (f : t) : t :=
  mk (is_palindrome f) (min_length f) (Some v) (word_count f)
     (contains_character f).
Definition set_word_count (v : Z) (f : t) : t :=
  mk (is_palindrome f) (min_length f) (max_length f) (Some v)
     (contains_character f).
Definition set_contains_character (v : jsstring) (f : t) : t :=
  mk (is_palindrome f) (min_length f) (max_length f) (word_count f)
     (Some v).
End Filters.

Module StringData.
Record t := mk {
  id : jsstring;
  value : jsstring;
  properties : Properties.t;
  created_at : jsstring;
}.
End StringData.

(** ** The query interpreter and the filter evaluator *)

(** [/longer than (\d+)/] *)
Definition re_longerThan : JS.regex :=
  JS.Seq (JS.Lit (JS.lit "longer than ")) (JS.Group (JS.Plus JS.isDigit)).

(** [/shorter than (\d+)/] *)
Definition re_shorterThan : JS.regex :=
  JS.Seq (JS.Lit (JS.lit "shorter than ")) (JS.Group (JS.Plus JS.isDigit)).

(** [/contain(?:s|ing)? (?:the letter |the character )?([a-z])/] *)
Definition re_contains : JS.regex :=
  JS.Seq (JS.Lit (JS.lit "contain"))
 (JS.Seq (JS.Opt (JS.Alt (JS.Lit (JS.lit "s")) (JS.Lit (JS.lit "ing"))))
 (JS.Seq (JS.Lit (JS.lit " "))
 (JS.Seq (JS.Opt (JS.Alt (JS.Lit (JS.lit "the letter "))
                         (JS.Lit (JS.lit "the character "))))
         (JS.Group (JS.Class JS.isLowerAlpha))))).

Section Engine.
Context `{JS.UnicodeTables}.

Definition parseNaturalLanguage (query : jsstring) : Filters.t :=
  let filters := Filters.empty in
  let lowerQuery := JS.toLowerCase query in
  (* Palindrome detection *)
  let filters :=
    if JS.includes lowerQuery (JS.lit "palindrome")
       || JS.includes lowerQuery (JS.lit "palindromic")
    then Filters.set_is_palindrome true filters
    else filters in
  (* Word count detection *)
  let filters :=
    if JS.includes lowerQuery (JS.lit "single word")
    then Filters.set_word_count 1 filters
    else if JS.includes lowerQuery (JS.lit "two word")
            || JS.includes lowerQuery (JS.lit "2 word")
    then Filters.set_word_count 2 filters
    else if JS.includes lowerQuery (JS.lit "three word")
            || JS.includes lowerQuery (JS.lit "3 word")
    then Filters.set_word_count 3 filters
    else filters in
  (* Length detection *)
  let longerThanMatch := JS.match_ lowerQuery re_longerThan in
  let filters :=
    match longerThanMatch with
    | Some m => Filters.set_min_length (JS.parseInt (m !!! 1%nat) + 1)%Z filters
    | None => filters
    end in
  let shorterThanMatch := JS.match_ lowerQuery re_shorterThan in
  let filters :=
    match shorterThanMatch with
    | Some m => Filters.set_max_length (JS.parseInt (m !!! 1%nat) - 1)%Z filters
    | None => filters
    end in
  (* Character containment *)
  let containsMatch := JS.match_ lowerQuery re_contains in
  let filters :=
    match containsMatch with
    | Some m => Filters.set_contains_character (m !!! 1%nat) filters
    | None => filters
    end in
  (* Vowel detection *)
  let filters :=
    if JS.includes lowerQuery (JS.lit "first vowel")
    then Filters.set_contains_character (JS.lit "a") filters
    else if JS.includes lowerQuery (JS.lit "second vowel")
    then Filters.set_contains_character (JS.lit "e") filters
    else filters in
  filters.

(** The callback of [strings.filter] in [applyFilters]: each present
    filter may return [false] early; an item that gets through all five
    is kept. *)
Definition keeps (filters : Filters.t) (item : StringData.t) : bool :=
  let properties := StringData.properties item in
  let value := StringData.value item in
  if match Filters.is_palindrome filters with
     | Some b => negb (Bool.eqb (Properties.is_palindrome properties) b)
     | None => false
     end then false
  else if match Filters.min_length filters with
     | Some n => (Properties.length properties <? n)%Z
     | None => false
     end then false
  else if match Filters.max_length filters with
     | Some n => (Properties.length properties >? n)%Z
     | None => false
     end then false
  else if match Filters.word_count filters with
     | Some n => negb (Properties.word_count properties =? n)%Z
     | None => false
     end then false
  else if match Filters.contains_character filters with
     | Some c => negb (JS.includes (JS.toLowerCase value) (JS.toLowerCase c))
     | None => false
     end then false
  else true.

Definition applyFilters (strings : list StringData.t) (filters : Filters.t)
  : list StringData.t :=
  List.filter (keeps filters) strings.

End Engine.

(** * Notions of the specification *)

(** The sum of the counts held by a frequency object. *)
Definition sum_values (m : gmap jsstring Z) : Z :=
  map_fold (λ _ n acc, (n + acc)%Z) 0%Z m.

(** Occurrences of the element [c] in an iteration [cps]. *)
Definition occurrences (c : jsstring) (cps : list jsstring) : Z :=
  Z.of_nat (length (filter (λ x, x = c) cps)).

(** The normalised copy of the content as the specification words it:
    lower-cased, then every code unit outside [a-z0-9] removed. *)
Definition normalized `{JS.UnicodeTables} (s : jsstring) : jsstring :=
  List.filter JS.isAlnum (JS.toLowerCase s).

(** U+1F600, one code point held in two code units. *)
Definition grinning_face : jsstring := [0xD83D; 0xDE00]%N.

(** At [s], the counts of the frequency object do not add up to the
    length, whatever the case tables and the digest are. *)
Definition frequency_sum_differs_from_length (s : jsstring) : Prop :=
  ∀ (U : JS.UnicodeTables) (D : JS.Sha256),
    sum_values (Properties.character_frequency_map (analyzeString s))
    ≠ Properties.length (analyzeString s).

Abbreviation white u := (JS.isWhiteSpace u = true).
Abbreviation black u := (JS.isWhiteSpace u = false).

(** [has_tokens s toks]: [toks] are, in order, the maximal non-empty runs of
    code units of [s] that hold no white space. [s] is some white space,
    then a token, then a remainder that is empty or starts with white space
    (so the token cannot be extended), and so on. *)
Inductive has_tokens : jsstring → list jsstring → Prop :=
| tokens_none w :
    Forall (λ u, white u) w → has_tokens w []
| tokens_next w t rest toks :
    Forall (λ u, white u) w →
    t ≠ [] → Forall (λ u, black u) t →
    (∀ u r, rest = u :: r → white u) →
    has_tokens rest toks →
    has_tokens (w ++ t ++ rest) (t :: toks).

(** The callback [(word) => word.length > 0]. *)
Definition nonEmpty (word : jsstring) : bool :=
  bool_decide (0 < length word).

(** [t] occurs in [s]: at some position of [s], the code units of [t]. *)
Definition occurs_in (t s : jsstring) : Prop := ∃ l r, s = l ++ t ++ r.

(** A record satisfies the criteria: every present criterion holds of it.
    [is_palindrome] and [word_count] ask for equality, [min_length] and
    [max_length] bound the length inclusively, [contains_character] asks
    that the lower-cased character occurs in the lower-cased content. *)
Definition satisfies `{JS.UnicodeTables}
  (criteria : Filters.t) (item : StringData.t) : Prop :=
  let p := StringData.properties item in
  (∀ b, Filters.is_palindrome criteria = Some b →
        Properties.is_palindrome p = b)
  ∧ (∀ n, Filters.min_length criteria = Some n →
          (n ≤ Properties.length p)%Z)
  ∧ (∀ n, Filters.max_length criteria = Some n →
          (Properties.length p ≤ n)%Z)
  ∧ (∀ n, Filters.word_count criteria = Some n →
          Properties.word_count p = n)
  ∧ (∀ c, Filters.contains_character criteria = Some c →
          occurs_in (JS.toLowerCase c)
                    (JS.toLowerCase (StringData.value item))).

(** None of the patterns of [parseNaturalLanguage] matches the
    lower-cased phrase [lq]. *)
Definition no_pattern_matches (lq : jsstring) : Prop :=
  (JS.includes lq (JS.lit "palindrome") = false
   ∧ JS.includes lq (JS.lit "palindromic") = false)
  ∧ (JS.includes lq (JS.lit "single word") = false
     ∧ JS.includes lq (JS.lit "two word") = false
     ∧ JS.includes lq (JS.lit "2 word") = false
     ∧ JS.includes lq (JS.lit "three word") = false
     ∧ JS.includes lq (JS.lit "3 word") = false)
  ∧ JS.match_ lq re_longerThan = None
  ∧ JS.match_ lq re_shorterThan = None
  ∧ JS.match_ lq re_contains = None
  ∧ (JS.includes lq (JS.lit "first vowel") = false
     ∧ JS.includes lq (JS.lit "second vowel") = false).

(** A string of code units in which no surrogate stands alone. *)
Definition wellFormed (s : jsstring) : Prop :=
  Forall JS.is_code_unit s ∧ JS.isWellFormed s = true.

(** Two different strings with one fingerprint, whatever the case tables
    and the digest are. *)
Definition fingerprints_collide (s1 s2 : jsstring) : Prop :=
  s1 ≠ s2
  ∧ ∀ (U : JS.UnicodeTables) (D : JS.Sha256),
      Properties.sha256_hash (analyzeString s1)
      = Properties.sha256_hash (analyzeString s2).

(** The elements the iterator yields for a well-formed string: a code unit
    that is no surrogate, or a surrogate pair. *)
Inductive scalar_chunk : jsstring → Prop :=
| chunk_unit u :
    JS.is_code_unit u →
    JS.isLeadSurrogate u || JS.isTrailSurrogate u = false →
    scalar_chunk [u]
| chunk_pair hi lo :
    JS.isLeadSurrogate hi = true → JS.isTrailSurrogate lo = true →
    scalar_chunk [hi; lo].

(** [r] has no capturing group. *)
Fixpoint groupFree (r : JS.regex) : bool :=
  match r with
  | JS.Group _ => false
  | JS.Seq r1 r2 | JS.Alt r1 r2 => groupFree r1 && groupFree r2
  | JS.Opt r1 => groupFree r1
  | JS.Lit _ | JS.Class _ | JS.Plus _ => true
  end.

(** * Properties *)

(** ** Iteration by code point *)

Lemma codePoints_ind (P : jsstring → Prop) :
  P [] →
  (∀ u, P [u]) →
  (∀ u v rest,
      JS.isLeadSurrogate u && JS.isTrailSurrogate v = true →
      P rest → P (u :: v :: rest)) →
  (∀ u v rest,
      JS.isLeadSurrogate u && JS.isTrailSurrogate v = false →
      P (v :: rest) → P (u :: v :: rest)) →
  ∀ s, P s.
Proof.
  intros Hnil Hone Hpair Hlone s.
  cut (P s ∧ ∀ u, P (u :: s)); [tauto|].
  induction s as [|v rest [IH1 IH2]]; [by split|].
  split; [apply IH2|].
  intros u.
  destruct (JS.isLeadSurrogate u && JS.isTrailSurrogate v) eqn:E.
  - by apply Hpair.
  - apply Hlone; [done|apply IH2].
Qed.

Lemma codePoints_pair u v rest :
  JS.isLeadSurrogate u && JS.isTrailSurrogate v = true →
  JS.codePoints (u :: v :: rest) = [u; v] :: JS.codePoints rest.
Proof. intros E. simpl. by rewrite E. Qed.

Lemma codePoints_single u v rest :
  JS.isLeadSurrogate u && JS.isTrailSurrogate v = false →
  JS.codePoints (u :: v :: rest) = [u] :: JS.codePoints (v :: rest).
Proof. intros E. cbn [JS.codePoints]. by rewrite E. Qed.

Lemma codePoints_concat s : concat (JS.codePoints s) = s.
Proof.
  induction s as [| u | u v rest E IH | u v rest E IH] using codePoints_ind;
    [done | done | |].
  - rewrite codePoints_pair by done. cbn [concat app]. by rewrite IH.
  - rewrite codePoints_single by done. cbn [concat app]. by rewrite IH.
Qed.

Lemma codePoints_length_le s : length (JS.codePoints s) ≤ length s.
Proof.
  induction s as [| u | u v rest E IH | u v rest E IH] using codePoints_ind;
    [done | done | |].
  - rewrite codePoints_pair by done. cbn [length]. lia.
  - rewrite codePoints_single by done. cbn [length] in *. lia.
Qed.

Lemma codePoints_length_eq s :
  length (JS.codePoints s) = length s ↔ JS.hasSurrogatePair s = false.
Proof.
  induction s as [| u | u v rest E IH | u v rest E IH] using codePoints_ind;
    [done | done | |].
  - rewrite codePoints_pair by done. cbn [JS.hasSurrogatePair]. rewrite E.
    pose proof (codePoints_length_le rest). cbn [length orb].
    split; [lia | done].
  - rewrite codePoints_single by done.
    change (JS.hasSurrogatePair (u :: v :: rest))
      with (JS.isLeadSurrogate u && JS.isTrailSurrogate v
            || JS.hasSurrogatePair (v :: rest)).
    rewrite E. cbn [orb length] in *. rewrite <- IH. lia.
Qed.

(** ** The frequency object *)

Lemma occurrences_notin c (cps : list jsstring) :
  c ∉ cps → occurrences c cps = 0%Z.
Proof.
  unfold occurrences. induction cps as [|x cps IH]; intros Hc; [done|].
  apply not_elem_of_cons in Hc as [Hne Hc].
  rewrite filter_cons_False by congruence. by apply IH.
Qed.

Lemma sum_values_insert_fresh (m : gmap jsstring Z) c v :
  m !! c = None → sum_values (<[c:=v]> m) = (v + sum_values m)%Z.
Proof.
  intros Hc. unfold sum_values.
  rewrite map_fold_insert_L; [done | intros; lia | done].
Qed.

Lemma sum_values_delete (m : gmap jsstring Z) c n :
  m !! c = Some n → sum_values m = (n + sum_values (delete c m))%Z.
Proof.
  intros Hc. unfold sum_values.
  rewrite (map_fold_delete_L _ _ c n m); [done | intros; lia | done].
Qed.

Lemma sum_values_countChar (m : gmap jsstring Z) (c : jsstring) :
  sum_values (countChar m c) = (sum_values m + 1)%Z.
Proof.
  unfold countChar. destruct (m !! c) as [n|] eqn:Hc.
  - rewrite <- insert_delete_eq.
    rewrite sum_values_insert_fresh by apply lookup_delete_eq.
    rewrite (sum_values_delete m c n Hc). simpl.
    destruct (Z.eqb_spec n 0); lia.
  - rewrite sum_values_insert_fresh by done. simpl. lia.
Qed.

Lemma sum_values_foldl (cps : list jsstring) (m : gmap jsstring Z) :
  sum_values (foldl countChar m cps) = (sum_values m + Z.of_nat (length cps))%Z.
Proof.
  revert m. induction cps as [|c cps IH]; intros m; simpl.
  - lia.
  - rewrite IH, sum_values_countChar. lia.
Qed.

Lemma dom_foldl_countChar (cps : list jsstring) (m : gmap jsstring Z) :
  dom (foldl countChar m cps) = list_to_set cps ∪ dom m.
Proof.
  revert m. induction cps as [|c cps IH]; intros m; simpl.
  - by rewrite (left_id_L ∅ (∪)).
  - rewrite IH. unfold countChar. rewrite dom_insert_L.
    rewrite (comm_L (∪) {[c]} (dom m)), (assoc_L (∪)).
    rewrite <- (assoc_L (∪)), (comm_L (∪) (dom m)), (assoc_L (∪)).
    by rewrite (comm_L (∪) (list_to_set cps) {[c]}).
Qed.

Lemma lookup_foldl_countChar (cps : list jsstring) (m : gmap jsstring Z) c :
  map_Forall (λ _ n, (0 < n)%Z) m →
  foldl countChar m cps !! c =
    if decide (c ∈ cps) then Some (JS.orZero (m !! c) + occurrences c cps)%Z
    else m !! c.
Proof.
  revert m. induction cps as [|x cps IH]; intros m Hpos.
  - rewrite decide_False by apply not_elem_of_nil. done.
  - assert (Hm : ∀ k, (0 <= JS.orZero (m !! k))%Z ∧
                     (∀ n, m !! k = Some n → JS.orZero (m !! k) = n)).
    { intros k. destruct (m !! k) as [n|] eqn:Hk; simpl; [|by split].
      specialize (Hpos k n Hk). simpl in Hpos.
      destruct (Z.eqb_spec n 0); [lia|]. split; [lia | congruence]. }
    assert (Hpos' : map_Forall (λ _ n, (0 < n)%Z) (countChar m x)).
    { unfold countChar. apply map_Forall_insert_2; [|done].
      pose proof (Hm x). lia. }
    cbn [foldl]. rewrite (IH _ Hpos'). unfold occurrences, countChar.
    rewrite filter_cons. destruct (decide (x = c)) as [->|Hne].
    + rewrite lookup_insert_eq. rewrite (decide_True (P := c ∈ c :: cps))
        by apply list_elem_of_here.
      assert (JS.orZero (Some (JS.orZero (m !! c) + 1)%Z)
              = (JS.orZero (m !! c) + 1)%Z) as ->.
      { simpl. destruct (Z.eqb_spec (JS.orZero (m !! c) + 1) 0);
          [pose proof (Hm c); lia | done]. }
      case_decide as Hin; f_equal; cbn [length]; [lia|].
      pose proof (occurrences_notin c cps Hin) as Hz.
      unfold occurrences in Hz. lia.
    + rewrite lookup_insert_ne by done.
      destruct (decide (c ∈ cps)) as [Hin|Hin].
      * rewrite decide_True by (by apply list_elem_of_further). done.
      * rewrite decide_False; [done|].
        intros [?|?]%elem_of_cons; congruence.
Qed.

(** ** The analyzer's record *)

Lemma replaceAll_remove (p : N → bool) (s : jsstring) :
  JS.replaceAll (λ u, negb (p u)) [] s = List.filter p s.
Proof.
  induction s as [|u s IH]; [done|].
  simpl. rewrite IH. by destruct (p u).
Qed.

Lemma join_reverse_splitChars (s : jsstring) :
  JS.join (JS.reverse (JS.splitChars s)) = rev s.
Proof.
  unfold JS.join, JS.reverse, JS.splitChars.
  induction s as [|u s IH]; [done|].
  simpl. by rewrite concat_app, IH.
Qed.

Section AnalyzerProperties.
Context `{JS.UnicodeTables} `{JS.Sha256}.

Lemma is_palindrome_normalized (s : jsstring) :
  Properties.is_palindrome (analyzeString s) = true
  ↔ normalized s = rev (normalized s).
Proof.
  unfold analyzeString, normalized. cbn [Properties.is_palindrome].
  rewrite replaceAll_remove, join_reverse_splitChars.
  apply bool_decide_eq_true.
Qed.

(** C1 (amended). The counts of [analyzeString(s).character_frequency_map]
  sum to the number of elements the string iterator yields for [s], a
  surrogate pair being one element. That sum is at most
  [analyzeString(s).length], the number of UTF-16 code units of [s], and
  equals it exactly when [s] holds no surrogate pair. The object counts
  every element of the iteration, white space and punctuation included
  and letter case kept: what it holds for [c] is the number of
  occurrences of [c], and nothing for an element that does not occur. *)
Theorem frequency_sum_is_code_point_count (s : jsstring) :
  let p := analyzeString s in
  let freq := Properties.character_frequency_map p in
  Properties.length p = Z.of_nat (length s)
  ∧ sum_values freq = Z.of_nat (length (JS.codePoints s))
  ∧ (sum_values freq ≤ Properties.length p)%Z
  ∧ (sum_values freq = Properties.length p ↔ JS.hasSurrogatePair s = false)
  ∧ ∀ c, freq !! c =
         if decide (c ∈ JS.codePoints s)
         then Some (occurrences c (JS.codePoints s)) else None.
Proof.
  cbv zeta. unfold analyzeString.
  cbn [Properties.length Properties.character_frequency_map].
  assert (Hsum : sum_values (foldl countChar ∅ (JS.codePoints s))
                 = Z.of_nat (length (JS.codePoints s))).
  { rewrite sum_values_foldl. unfold sum_values.
    rewrite map_fold_empty. lia. }
  rewrite Hsum. repeat split.
  - pose proof (codePoints_length_le s). lia.
  - intros Heq. apply codePoints_length_eq. lia.
  - intros Hno. apply codePoints_length_eq in Hno. lia.
  - intros c. rewrite lookup_foldl_countChar by apply map_Forall_empty.
    rewrite lookup_empty. simpl. case_decide; [f_equal; lia | done].
Qed.

(** C10. [analyzeString(s).unique_characters] is the number of distinct keys
  of [analyzeString(s).character_frequency_map]: the set and the object
  are both filled from the string iterator, so the keys are the members
  of the set, also where the length in code units exceeds the number of
  code points. *)
Theorem unique_characters_is_key_count (s : jsstring) :
  let p := analyzeString s in
  dom (Properties.character_frequency_map p)
    = (list_to_set (JS.codePoints s) : gset jsstring)
  ∧ Properties.unique_characters p
    = Z.of_nat (size (dom (Properties.character_frequency_map p)))
  ∧ Properties.unique_characters p
    = Z.of_nat (size (Properties.character_frequency_map p)).
Proof.
  cbv zeta. unfold analyzeString.
  cbn [Properties.unique_characters Properties.character_frequency_map].
  assert (Hdom : dom (foldl countChar ∅ (JS.codePoints s))
                 = (list_to_set (JS.codePoints s) : gset jsstring)).
  { rewrite dom_foldl_countChar, dom_empty_L. apply (right_id_L ∅ (∪)). }
  split; [done|]. rewrite <- (size_dom (D := gset jsstring)), Hdom. done.
Qed.

(** C2. [analyzeString(s).is_palindrome] is true exactly when the normalised
  copy of [s] (lower-cased, every code unit outside [a-z0-9] removed)
  equals its reversal. An empty normalised copy gives true, so the empty
  string is a palindrome; so are "racecar" and
  "A man a plan a canal Panama"; "hello" is not. *)
Theorem is_palindrome_iff_normalized_reads_both_ways :
  (∀ s, Properties.is_palindrome (analyzeString s) = true
        ↔ normalized s = rev (normalized s))
  ∧ (∀ s, normalized s = [] →
          Properties.is_palindrome (analyzeString s) = true)
  ∧ Properties.is_palindrome (analyzeString (JS.lit "")) = true
  ∧ Properties.is_palindrome (analyzeString (JS.lit "racecar")) = true
  ∧ Properties.is_palindrome
      (analyzeString (JS.lit "A man a plan a canal Panama")) = true
  ∧ Properties.is_palindrome (analyzeString (JS.lit "hello")) = false.
Proof.
  split; [apply is_palindrome_normalized|].
  split; [|by vm_compute].
  intros s Hs. apply is_palindrome_normalized. by rewrite Hs.
Qed.

End AnalyzerProperties.

(** C1, as stated, fails at U+1F600: the frequency object holds one key
    with count 1, the length is 2. *)
Lemma frequency_sum_differs_at_grinning_face :
  frequency_sum_differs_from_length grinning_face.
Proof. intros U D. by vm_compute. Qed.

(** ** Word count *)

Lemma splitLoop_white (w x : jsstring) (inMatch : bool) :
  Forall (λ u, white u) w →
  ∃ inMatch',
    List.filter nonEmpty (JS.splitLoop inMatch [] (w ++ x))
    = List.filter nonEmpty (JS.splitLoop inMatch' [] x).
Proof.
  intros Hw. revert inMatch.
  induction Hw as [|u w Hu _ IH]; intros inMatch; [by exists inMatch|].
  destruct (IH true) as [inMatch' Heq]. exists inMatch'.
  cbn [app JS.splitLoop]. rewrite Hu. by destruct inMatch.
Qed.

Lemma splitLoop_black (t x : jsstring) :
  Forall (λ u, black u) t →
  ∀ inMatch cur,
    JS.splitLoop inMatch cur (t ++ x)
    = JS.splitLoop (match t with [] => inMatch | _ => false end) (cur ++ t) x.
Proof.
  induction 1 as [|u t Hu _ IH]; intros inMatch cur.
  - by rewrite app_nil_r.
  - cbn [app JS.splitLoop]. rewrite Hu, IH, <- app_assoc.
    by destruct t.
Qed.

(** The non-empty pieces of the split are the tokens. *)
Lemma split_words_are_tokens s toks :
  has_tokens s toks →
  ∀ inMatch, List.filter nonEmpty (JS.splitLoop inMatch [] s) = toks.
Proof.
  induction 1 as [w Hw | w t rest toks Hw Hne Ht Hb _ IH]; intros inMatch.
  - destruct (splitLoop_white w [] inMatch Hw) as [inMatch' Heq].
    rewrite app_nil_r in Heq. by rewrite Heq.
  - destruct (splitLoop_white w (t ++ rest) inMatch Hw) as [inMatch' ->].
    rewrite (splitLoop_black t rest Ht). cbn [app].
    destruct t as [|c t]; [done|].
    destruct rest as [|u r].
    + specialize (IH false). cbn in IH. subst toks. done.
    + specialize (IH true). cbn [JS.splitLoop] in *.
      rewrite (Hb u r eq_refl) in *. cbn [List.filter].
      by rewrite IH.
Qed.

Lemma has_tokens_unique s toks1 toks2 :
  has_tokens s toks1 → has_tokens s toks2 → toks1 = toks2.
Proof.
  intros H1 H2.
  by rewrite <- (split_words_are_tokens s toks1 H1 false),
             <- (split_words_are_tokens s toks2 H2 false).
Qed.

Lemma has_tokens_white u s toks :
  white u → has_tokens s toks → has_tokens (u :: s) toks.
Proof.
  intros Hu Hs. destruct Hs as [w Hw | w t rest toks Hw Hne Ht Hb Hrest].
  - apply tokens_none. by constructor.
  - apply (tokens_next (u :: w)); try done. by constructor.
Qed.

Lemma has_tokens_black u s toks :
  black u → has_tokens s toks → ∃ toks', has_tokens (u :: s) toks'.
Proof.
  intros Hu Hs. destruct Hs as [w Hw | w t rest toks Hw Hne Ht Hb Hrest].
  - exists [[u]]. apply (tokens_next [] [u] w []); try done.
    + by repeat constructor.
    + intros v r ->. by inversion Hw.
    + by apply tokens_none.
  - destruct w as [|v w].
    + exists ((u :: t) :: toks).
      apply (tokens_next [] (u :: t) rest toks); try done.
      by constructor.
    + exists ([u] :: t :: toks).
      apply (tokens_next [] [u] ((v :: w) ++ t ++ rest) (t :: toks));
        try done.
      * by repeat constructor.
      * intros v' r [= <- _]. by inversion Hw.
      * by apply tokens_next.
Qed.

Lemma has_tokens_total s : ∃ toks, has_tokens s toks.
Proof.
  induction s as [|u s [toks IH]].
  - exists []. by apply tokens_none.
  - destruct (JS.isWhiteSpace u) eqn:Hu.
    + exists toks. by apply has_tokens_white.
    + by apply (has_tokens_black u s toks).
Qed.

Section WordCount.
Context `{JS.UnicodeTables} `{JS.Sha256}.

Lemma word_count_tokens s toks :
  has_tokens (JS.trim s) toks →
  Properties.word_count (analyzeString s) = Z.of_nat (length toks).
Proof.
  intros Htoks. unfold analyzeString. cbn [Properties.word_count].
  unfold JS.splitWhiteSpace.
  by rewrite <- (split_words_are_tokens _ _ Htoks false).
Qed.

(** C6. [analyzeString(s).word_count] is the number of maximal non-empty
  tokens delimited by white space in [s] after trimming, a run of white
  space being one delimiter: whatever way the trimmed string is cut into
  such tokens (there is always one), the count is the number of tokens.
  "  hello   world  " has 2 words and the empty string has 0. *)
Theorem word_count_is_token_count :
  (∀ s toks, has_tokens (JS.trim s) toks →
             Properties.word_count (analyzeString s)
             = Z.of_nat (length toks))
  ∧ (∀ s, ∃ toks, has_tokens (JS.trim s) toks)
  ∧ has_tokens (JS.trim (JS.lit "  hello   world  "))
               [JS.lit "hello"; JS.lit "world"]
  ∧ Properties.word_count (analyzeString (JS.lit "  hello   world  ")) = 2%Z
  ∧ Properties.word_count (analyzeString (JS.lit "")) = 0%Z.
Proof.
  split; [|split; [|split; [|by vm_compute]]].
  - apply word_count_tokens.
  - intros s. apply has_tokens_total.
  - apply (tokens_next [] (JS.lit "hello") (JS.lit "   world") [_]);
      [done | done | by repeat constructor | by intros u r [= <- _] |].
    apply (tokens_next (JS.lit "   ") (JS.lit "world") [] []);
      [by repeat constructor | done | by repeat constructor | done |].
    by apply tokens_none.
Qed.

End WordCount.

(** ** Searching *)

Lemma startsWith_spec s t : JS.startsWith s t = true ↔ ∃ r, s = t ++ r.
Proof.
  revert s. induction t as [|b t IH]; intros s.
  - destruct s; simpl; split; eauto.
  - destruct s as [|a s]; cbn [JS.startsWith].
    + split; [done | by intros [r ?]].
    + rewrite andb_true_iff, N.eqb_eq, IH. split.
      * intros [-> [r ->]]. by exists r.
      * intros [r [= -> ->]]. eauto.
Qed.

Lemma includes_spec s t : JS.includes s t = true ↔ occurs_in t s.
Proof.
  unfold occurs_in. induction s as [|a s IH].
  - cbn [JS.includes]. rewrite orb_false_r, startsWith_spec. split.
    + intros [r ->]. by exists [], r.
    + intros (l & r & Hs). symmetry in Hs.
      apply app_eq_nil in Hs as [-> Hs]. apply app_eq_nil in Hs as [-> ->].
      by exists [].
  - cbn [JS.includes]. rewrite orb_true_iff, IH, startsWith_spec. split.
    + intros [[r ->] | (l & r & ->)]; [by exists [], r | by exists (a :: l), r].
    + intros ([|a' l] & r & Hs).
      * left. by exists r.
      * right. injection Hs as -> ->. by exists l, r.
Qed.

(** ** The filter evaluator *)

Section FilterProperties.
Context `{JS.UnicodeTables}.

(** The five early returns of the callback, one by one. *)
Lemma keeps_conjunction criteria item :
  keeps criteria item =
    let p := StringData.properties item in
    from_option (λ b, Bool.eqb (Properties.is_palindrome p) b) true
                (Filters.is_palindrome criteria)
    && from_option (λ n, (n <=? Properties.length p)%Z) true
                   (Filters.min_length criteria)
    && from_option (λ n, (Properties.length p <=? n)%Z) true
                   (Filters.max_length criteria)
    && from_option (λ n, (Properties.word_count p =? n)%Z) true
                   (Filters.word_count criteria)
    && from_option (λ c, JS.includes (JS.toLowerCase (StringData.value item))
                                     (JS.toLowerCase c)) true
                   (Filters.contains_character criteria).
Proof.
  unfold keeps.
  destruct criteria as [[b|] [minl|] [maxl|] [wc|] [c|]]; cbn;
    rewrite ?Z.gtb_ltb, ?(Z.ltb_antisym _ (Properties.length _)),
            ?(Z.ltb_antisym (Properties.length _));
    repeat match goal with
           | |- context [Bool.eqb ?x ?y] => destruct (Bool.eqb x y)
           | |- context [(?x <=? ?y)%Z] => destruct (x <=? y)%Z
           | |- context [(?x =? ?y)%Z] => destruct (x =? y)%Z
           | |- context [JS.includes ?x ?y] => destruct (JS.includes x y)
           end; done.
Qed.

Lemma from_option_true {A} (f : A → bool) (P : A → Prop) (o : option A) :
  (∀ x, f x = true ↔ P x) →
  from_option f true o = true ↔ ∀ x, o = Some x → P x.
Proof.
  intros Hf. destruct o as [y|]; simpl.
  - rewrite Hf. split; [by intros ? ? [= <-] | eauto].
  - split; [done | done].
Qed.

Lemma keeps_satisfies criteria item :
  keeps criteria item = true ↔ satisfies criteria item.
Proof.
  rewrite keeps_conjunction. unfold satisfies. cbv zeta.
  rewrite !andb_true_iff, <- !(assoc and).
  set (p := StringData.properties item).
  rewrite (from_option_true _ (λ b, Properties.is_palindrome p = b))
    by (intros; apply eqb_true_iff).
  rewrite (from_option_true _ (λ n, (n ≤ Properties.length p)%Z))
    by (intros; apply Z.leb_le).
  rewrite (from_option_true _ (λ n, (Properties.length p ≤ n)%Z))
    by (intros; apply Z.leb_le).
  rewrite (from_option_true _ (λ n, Properties.word_count p = n))
    by (intros; apply Z.eqb_eq).
  rewrite (from_option_true _
             (λ c, occurs_in (JS.toLowerCase c)
                             (JS.toLowerCase (StringData.value item))))
    by (intros; apply includes_spec).
  done.
Qed.

#[local] Instance satisfies_dec criteria item :
  Decision (satisfies criteria item).
Proof.
  destruct (keeps criteria item) eqn:Hk.
  - left. by apply keeps_satisfies.
  - right. rewrite <- keeps_satisfies. congruence.
Defined.

Lemma applyFilters_filter records criteria :
  applyFilters records criteria = filter (satisfies criteria) records.
Proof.
  unfold applyFilters. induction records as [|item records IH]; [done|].
  cbn [List.filter]. rewrite filter_cons, IH.
  destruct (keeps criteria item) eqn:Hk.
  - rewrite decide_True; [done | by apply keeps_satisfies].
  - rewrite decide_False; [done|]. rewrite <- keeps_satisfies. congruence.
Qed.

(** C3. [applyFilters(records, criteria)] is exactly the subsequence of
  [records], in their order, of the records that satisfy every present
  criterion ([is_palindrome] and [word_count] by equality, [min_length]
  and [max_length] as inclusive bounds on the length, [contains_character]
  by occurrence in the content). An absent criterion constrains nothing:
  with no criterion present the output is the input, unchanged. *)
Theorem applyFilters_is_satisfying_subsequence
    (records : list StringData.t) (criteria : Filters.t) :
  applyFilters records criteria = filter (satisfies criteria) records
  ∧ sublist (applyFilters records criteria) records
  ∧ (∀ item, item ∈ applyFilters records criteria
             ↔ item ∈ records ∧ satisfies criteria item)
  ∧ (∀ item, satisfies Filters.empty item)
  ∧ applyFilters records Filters.empty = records.
Proof.
  split; [apply applyFilters_filter|].
  split; [rewrite applyFilters_filter; apply sublist_filter|].
  split.
  { intros item. rewrite applyFilters_filter, list_elem_of_filter. tauto. }
  split; [by repeat split|].
  unfold applyFilters. induction records as [|item records IH]; [done|].
  cbn. by rewrite IH.
Qed.

(** C5. Where [contains_character] is present, a record gets through that
  criterion exactly when the lower-cased character occurs in the
  lower-cased content of the record: the check adds that one test to the
  other criteria, and it reads the content ([value]) alone, not the stored
  properties. So "Apple" passes for the character "a", though the
  frequency object of "Apple", which keeps letter case, has no key "a". *)
Theorem contains_character_reads_lowercased_content :
  (∀ ip minl maxl wc c item,
      keeps (Filters.mk ip minl maxl wc (Some c)) item
      = keeps (Filters.mk ip minl maxl wc None) item
        && JS.includes (JS.toLowerCase (StringData.value item))
                       (JS.toLowerCase c))
  ∧ (∀ c item,
        keeps (Filters.set_contains_character c Filters.empty) item = true
        ↔ occurs_in (JS.toLowerCase c)
                    (JS.toLowerCase (StringData.value item)))
  ∧ (∀ c item item',
        StringData.value item = StringData.value item' →
        keeps (Filters.set_contains_character c Filters.empty) item
        = keeps (Filters.set_contains_character c Filters.empty) item')
  ∧ (∀ (D : JS.Sha256) id created_at,
        let apple := JS.lit "Apple" in
        let item := StringData.mk id apple (analyzeString apple) created_at in
        keeps (Filters.set_contains_character (JS.lit "a") Filters.empty)
              item = true
        ∧ Properties.character_frequency_map (StringData.properties item)
            !! JS.lit "a" = None
        ∧ Properties.character_frequency_map (StringData.properties item)
            !! JS.lit "A" = Some 1%Z).
Proof.
  split.
  { intros. rewrite !keeps_conjunction. cbn. by rewrite !andb_true_r. }
  split.
  { intros c item. rewrite keeps_conjunction. cbn. apply includes_spec. }
  split.
  { intros c item item' Hv. rewrite !keeps_conjunction. cbn. by rewrite Hv. }
  intros D id created_at. by vm_compute.
Qed.

End FilterProperties.

(** ** Regular expressions: what a match holds *)

Lemma plusRest_Some {R} p s (k : jsstring → option R) m :
  JS.plusRest p s k = Some m →
  ∃ d s', s = d ++ s' ∧ Forall (λ u, p u = true) d ∧ k s' = Some m.
Proof.
  induction s as [|u s IH]; cbn [JS.plusRest]; intros Hm.
  - by exists [], [].
  - destruct (p u) eqn:Hu; [|by exists [], (u :: s)].
    destruct (JS.plusRest p s k) as [m'|] eqn:Hrest;
      [|by exists [], (u :: s)].
    destruct (IH Hm) as (d & s' & -> & Hd & Hk).
    exists (u :: d), s'. repeat split; [by constructor | done].
Qed.

(** A part without groups hands the captures on as they were. *)
Lemma matchAt_groupFree {R} r : ∀ s caps (k : _ → _ → option R) m,
  groupFree r = true →
  JS.matchAt r s caps k = Some m → ∃ s', k s' caps = Some m.
Proof.
  induction r as [l | p | p | r1 IH1 r2 IH2 | r1 IH1 r2 IH2 | r1 IH1 | r1 _];
    intros s caps k m Hfree; cbn [JS.matchAt groupFree] in *.
  - destruct (JS.startsWith s l); [eauto | done].
  - destruct s as [|u s]; [done|]. destruct (p u); [eauto | done].
  - destruct s as [|u s]; [done|]. destruct (p u); [|done].
    intros (d & s' & _ & _ & Hk)%plusRest_Some. eauto.
  - apply andb_true_iff in Hfree as [Hf1 Hf2].
    intros [s' Hm]%IH1; [|done]. by apply IH2 in Hm.
  - apply andb_true_iff in Hfree as [Hf1 Hf2].
    destruct (JS.matchAt r1 s caps k) as [m'|] eqn:H1.
    + intros [= <-]. by apply IH1 in H1.
    + by apply IH2.
  - destruct (JS.matchAt r1 s caps k) as [m'|] eqn:H1.
    + intros [= <-]. by apply IH1 in H1.
    + eauto.
  - done.
Qed.

Lemma matchAt_Seq_groupFree {R} r1 r2 s caps (k : _ → _ → option R) m :
  groupFree r1 = true →
  JS.matchAt (JS.Seq r1 r2) s caps k = Some m →
  ∃ s', JS.matchAt r2 s' caps k = Some m.
Proof.
  intros Hfree Hm. cbn [JS.matchAt] in Hm.
  by apply (matchAt_groupFree r1) in Hm.
Qed.

(** [([a-z])]: the capture is one code unit of the class. *)
Lemma matchAt_Group_Class {R} p s caps (k : _ → _ → option R) m :
  JS.matchAt (JS.Group (JS.Class p)) s caps k = Some m →
  ∃ u s', p u = true ∧ k s' (caps ++ [[u]]) = Some m.
Proof.
  cbn [JS.matchAt]. destruct s as [|u s]; [done|].
  destruct (p u) eqn:Hu; [|done]. intros Hk. exists u, s. split; [done|].
  by replace (length (u :: s) - length s) with 1 in Hk by (cbn; lia).
Qed.

(** [(\d+)]: the capture is a non-empty run of code units of the class. *)
Lemma matchAt_Group_Plus {R} p s caps (k : _ → _ → option R) m :
  JS.matchAt (JS.Group (JS.Plus p)) s caps k = Some m →
  ∃ d s', d ≠ [] ∧ Forall (λ u, p u = true) d
          ∧ k s' (caps ++ [d]) = Some m.
Proof.
  cbn [JS.matchAt]. destruct s as [|u s]; [done|].
  destruct (p u) eqn:Hu; [|done].
  intros (d & s' & -> & Hd & Hk)%plusRest_Some.
  exists (u :: d), s'. split; [done|]. split; [by constructor|].
  replace (length (u :: d ++ s') - length s') with (length (u :: d)) in Hk
    by (cbn; rewrite length_app; lia).
  change (u :: d ++ s') with ((u :: d) ++ s') in Hk.
  by rewrite take_app_length in Hk.
Qed.

(** A match is a match at some position. *)
Lemma match__Some s r m :
  JS.match_ s r = Some m →
  ∃ s0, JS.matchAt r s0 []
          (λ s' caps, Some (take (length s0 - length s') s0 :: caps))
        = Some m.
Proof.
  induction s as [|u s IH]; cbn [JS.match_].
  - destruct (JS.matchAt r [] [] _) eqn:Hm; [|done].
    intros [= <-]. eauto.
  - destruct (JS.matchAt r (u :: s) [] _) eqn:Hm; [|done].
    intros [= <-]. eauto.
Qed.

(** [m[1]] of a match of the length patterns is a decimal numeral. *)
Lemma match_than_capture l s m :
  JS.match_ s (JS.Seq (JS.Lit l) (JS.Group (JS.Plus JS.isDigit))) = Some m →
  ∃ whole digits,
    m = [whole; digits] ∧ digits ≠ []
    ∧ Forall (λ u, JS.isDigit u = true) digits.
Proof.
  intros [s0 Hm]%match__Some.
  apply matchAt_Seq_groupFree in Hm as [s1 Hm]; [|done].
  apply matchAt_Group_Plus in Hm as (d & s' & Hne & Hd & [= <-]).
  by eexists _, d.
Qed.

(** [m[1]] of a match of the containment pattern is one letter. *)
Lemma match_contains_capture s m :
  JS.match_ s re_contains = Some m →
  ∃ whole u, m = [whole; [u]] ∧ JS.isLowerAlpha u = true.
Proof.
  intros [s0 Hm]%match__Some. unfold re_contains in Hm.
  do 4 (apply matchAt_Seq_groupFree in Hm as [? Hm]; [|done]).
  apply matchAt_Group_Class in Hm as (u & s' & Hu & [= <-]).
  by eexists _, u.
Qed.

(** ** The query interpreter *)

Section InterpreterProperties.
Context `{JS.UnicodeTables}.

Lemma parse_is_palindrome query :
  let lowerQuery := JS.toLowerCase query in
  Filters.is_palindrome (parseNaturalLanguage query) =
    if JS.includes lowerQuery (JS.lit "palindrome")
       || JS.includes lowerQuery (JS.lit "palindromic")
    then Some true else None.
Proof.
  cbv zeta. unfold parseNaturalLanguage.
  repeat match goal with
         | |- context [if ?b then _ else _] => destruct b
         | |- context [match ?o with Some _ => _ | None => _ end] =>
             destruct o
         end; reflexivity.
Qed.

Lemma parse_word_count query :
  let lowerQuery := JS.toLowerCase query in
  Filters.word_count (parseNaturalLanguage query) =
    if JS.includes lowerQuery (JS.lit "single word") then Some 1%Z
    else if JS.includes lowerQuery (JS.lit "two word")
            || JS.includes lowerQuery (JS.lit "2 word") then Some 2%Z
    else if JS.includes lowerQuery (JS.lit "three word")
            || JS.includes lowerQuery (JS.lit "3 word") then Some 3%Z
    else None.
Proof.
  cbv zeta. unfold parseNaturalLanguage.
  repeat match goal with
         | |- context [if ?b then _ else _] => destruct b
         | |- context [match ?o with Some _ => _ | None => _ end] =>
             destruct o
         end; reflexivity.
Qed.

Lemma parse_min_length query :
  Filters.min_length (parseNaturalLanguage query) =
    (λ m, JS.parseInt (m !!! 1%nat) + 1)%Z
      <$> JS.match_ (JS.toLowerCase query) re_longerThan.
Proof.
  unfold parseNaturalLanguage.
  repeat match goal with
         | |- context [if ?b then _ else _] => destruct b
         | |- context [match ?o with Some _ => _ | None => _ end] =>
             destruct o
         end; reflexivity.
Qed.

Lemma parse_max_length query :
  Filters.max_length (parseNaturalLanguage query) =
    (λ m, JS.parseInt (m !!! 1%nat) - 1)%Z
      <$> JS.match_ (JS.toLowerCase query) re_shorterThan.
Proof.
  unfold parseNaturalLanguage.
  repeat match goal with
         | |- context [if ?b then _ else _] => destruct b
         | |- context [match ?o with Some _ => _ | None => _ end] =>
             destruct o
         end; reflexivity.
Qed.

Lemma parse_contains_character query :
  let lowerQuery := JS.toLowerCase query in
  Filters.contains_character (parseNaturalLanguage query) =
    if JS.includes lowerQuery (JS.lit "first vowel") then Some (JS.lit "a")
    else if JS.includes lowerQuery (JS.lit "second vowel")
    then Some (JS.lit "e")
    else (λ m, m !!! 1%nat) <$> JS.match_ lowerQuery re_contains.
Proof.
  cbv zeta. unfold parseNaturalLanguage.
  repeat match goal with
         | |- context [if ?b then _ else _] => destruct b
         | |- context [match ?o with Some _ => _ | None => _ end] =>
             destruct o
         end; reflexivity.
Qed.

(** A character criterion read off a phrase is one letter a-z. *)
Lemma parse_contains_character_letter query c :
  Filters.contains_character (parseNaturalLanguage query) = Some c →
  ∃ u, c = [u] ∧ JS.isLowerAlpha u = true.
Proof.
  rewrite parse_contains_character. cbv zeta.
  destruct (JS.includes _ (JS.lit "first vowel"));
    [intros [= <-]; by exists 97%N|].
  destruct (JS.includes _ (JS.lit "second vowel"));
    [intros [= <-]; by exists 101%N|].
  destruct (JS.match_ _ re_contains) as [m|] eqn:Hm; [|done].
  apply match_contains_capture in Hm as (whole & u & -> & Hu).
  intros [= <-]. by exists u.
Qed.

(** A length criterion read off a phrase comes from a decimal numeral. *)
Lemma parse_min_length_numeral query n :
  Filters.min_length (parseNaturalLanguage query) = Some n →
  ∃ digits, digits ≠ [] ∧ Forall (λ u, JS.isDigit u = true) digits
            ∧ n = (JS.parseInt digits + 1)%Z.
Proof.
  rewrite parse_min_length.
  destruct (JS.match_ _ re_longerThan) as [m|] eqn:Hm; [|done].
  apply match_than_capture in Hm as (whole & digits & -> & Hne & Hd).
  intros [= <-]. by exists digits.
Qed.

Lemma parse_max_length_numeral query n :
  Filters.max_length (parseNaturalLanguage query) = Some n →
  ∃ digits, digits ≠ [] ∧ Forall (λ u, JS.isDigit u = true) digits
            ∧ n = (JS.parseInt digits - 1)%Z.
Proof.
  rewrite parse_max_length.
  destruct (JS.match_ _ re_shorterThan) as [m|] eqn:Hm; [|done].
  apply match_than_capture in Hm as (whole & digits & -> & Hne & Hd).
  intros [= <-]. by exists digits.
Qed.

Lemma and_iff_both (A A' B B' : Prop) :
  (A ↔ A') → (B ↔ B') → (A ∧ B ↔ A' ∧ B').
Proof. tauto. Qed.

Lemma filters_empty_iff (f : Filters.t) :
  f = Filters.empty
  ↔ Filters.is_palindrome f = None ∧ Filters.word_count f = None
    ∧ Filters.min_length f = None ∧ Filters.max_length f = None
    ∧ Filters.contains_character f = None.
Proof.
  split; [by intros ->|].
  destruct f; cbn. by intros (-> & -> & -> & -> & ->).
Qed.

(** C4. In [parseNaturalLanguage] the vowel rules come after the
  letter-containment rule and write the same field: where "first vowel"
  occurs the result has [contains_character = 'a'], otherwise where
  "second vowel" occurs it has 'e', whatever letter the containment
  pattern captured; only where neither occurs does the captured letter
  stay. For "palindromic strings that contain the first vowel" the
  containment pattern captures "t", the vowel rule overwrites it, and the
  result is exactly [{is_palindrome: true, contains_character: 'a'}]. *)
Theorem vowel_rule_overwrites_contains_character :
  (∀ query,
      let lowerQuery := JS.toLowerCase query in
      Filters.contains_character (parseNaturalLanguage query) =
        if JS.includes lowerQuery (JS.lit "first vowel")
        then Some (JS.lit "a")
        else if JS.includes lowerQuery (JS.lit "second vowel")
        then Some (JS.lit "e")
        else (λ m, m !!! 1%nat) <$> JS.match_ lowerQuery re_contains)
  ∧ (let query := JS.lit "palindromic strings that contain the first vowel" in
     (λ m, m !!! 1%nat) <$> JS.match_ (JS.toLowerCase query) re_contains
       = Some (JS.lit "t")
     ∧ parseNaturalLanguage query
       = {| Filters.is_palindrome := Some true;
            Filters.min_length := None;
            Filters.max_length := None;
            Filters.word_count := None;
            Filters.contains_character := Some (JS.lit "a") |}).
Proof.
  split; [apply parse_contains_character | by vm_compute].
Qed.

(** C7. In [parseNaturalLanguage] the word-count phrases are tried in the
  order "single word" (1), "two word" or "2 word" (2), "three word" or
  "3 word" (3), and the first that occurs decides [word_count]: the later
  ones sit in its [else] branch. "all single word palindromic strings"
  gives [{word_count: 1, is_palindrome: true}]; a phrase with both
  "single word" and "two word" gives 1. *)
Theorem word_count_phrase_first_match_wins :
  (∀ query,
      let lowerQuery := JS.toLowerCase query in
      Filters.word_count (parseNaturalLanguage query) =
        if JS.includes lowerQuery (JS.lit "single word") then Some 1%Z
        else if JS.includes lowerQuery (JS.lit "two word")
                || JS.includes lowerQuery (JS.lit "2 word") then Some 2%Z
        else if JS.includes lowerQuery (JS.lit "three word")
                || JS.includes lowerQuery (JS.lit "3 word") then Some 3%Z
        else None)
  ∧ parseNaturalLanguage (JS.lit "all single word palindromic strings")
    = {| Filters.is_palindrome := Some true;
         Filters.min_length := None;
         Filters.max_length := None;
         Filters.word_count := Some 1%Z;
         Filters.contains_character := None |}
  ∧ Filters.word_count
      (parseNaturalLanguage (JS.lit "three word or two word or single word"))
    = Some 1%Z
  ∧ Filters.word_count
      (parseNaturalLanguage (JS.lit "3 word or 2 word strings"))
    = Some 2%Z.
Proof.
  split; [apply parse_word_count | by vm_compute].
Qed.

(** C8. [parseNaturalLanguage] is a total function of the phrase and has no
  error outcome other than the empty criteria: it returns [{}] exactly
  when none of its patterns matches the lower-cased phrase.
  "bananas are yellow" gives [{}]. *)
Theorem parse_empty_iff_no_pattern_matches :
  (∀ query, no_pattern_matches (JS.toLowerCase query)
            ↔ parseNaturalLanguage query = Filters.empty)
  ∧ parseNaturalLanguage (JS.lit "bananas are yellow") = Filters.empty.
Proof.
  split; [|by vm_compute].
  intros query. rewrite filters_empty_iff.
  rewrite parse_is_palindrome, parse_word_count, parse_min_length,
    parse_max_length, parse_contains_character.
  cbv zeta. unfold no_pattern_matches.
  set (lq := JS.toLowerCase query).
  rewrite !fmap_None.
  repeat apply and_iff_both; try reflexivity.
  - destruct (JS.includes lq (JS.lit "palindrome")),
      (JS.includes lq (JS.lit "palindromic"));
      cbv beta iota delta [orb]; intuition congruence.
  - destruct (JS.includes lq (JS.lit "single word")),
      (JS.includes lq (JS.lit "two word")),
      (JS.includes lq (JS.lit "2 word")),
      (JS.includes lq (JS.lit "three word")),
      (JS.includes lq (JS.lit "3 word"));
      cbv beta iota delta [orb]; intuition congruence.
  - destruct (JS.includes lq (JS.lit "first vowel")),
      (JS.includes lq (JS.lit "second vowel"));
      cbv beta iota; rewrite ?fmap_None; intuition congruence.
Qed.

End InterpreterProperties.

(** ** The fingerprint *)

Ltac range_facts :=
  unfold JS.is_code_unit, JS.isLeadSurrogate, JS.isTrailSurrogate,
    JS.in_range in *;
  repeat match goal with
         | H : _ || _ = false |- _ => apply orb_false_iff in H as [? ?]
         | H : _ && _ = true |- _ => apply andb_true_iff in H as [? ?]
         | H : _ && _ = false |- _ => apply andb_false_iff in H
         | H : (_ <=? _)%N = true |- _ => apply N.leb_le in H
         | H : (_ <=? _)%N = false |- _ => apply N.leb_gt in H
         | H : (_ <? _)%N = true |- _ => apply N.ltb_lt in H
         | H : (_ <? _)%N = false |- _ => apply N.ltb_ge in H
         end.

Ltac euclid := zify; Z.to_euclidean_division_equations; lia.

Lemma wellFormed_chunks s :
  wellFormed s → Forall scalar_chunk (JS.codePoints s).
Proof.
  unfold wellFormed, JS.isWellFormed.
  induction s as [| u | u v rest E IH | u v rest E IH] using codePoints_ind;
    intros [Hu Hwf].
  - constructor.
  - simpl in Hwf. rewrite andb_true_r in Hwf. apply negb_true_iff in Hwf.
    repeat constructor; [by inversion Hu | done].
  - rewrite codePoints_pair in * by done. cbn [forallb] in Hwf.
    apply andb_true_iff in E as [? ?].
    constructor; [by constructor|].
    apply IH. split; [by do 2 apply Forall_inv_tail in Hu | done].
  - rewrite codePoints_single in * by done. cbn [forallb] in Hwf.
    apply andb_true_iff in Hwf as [Hu' Hwf]. apply negb_true_iff in Hu'.
    constructor; [constructor; [by inversion Hu | done]|].
    apply IH. split; [by apply Forall_inv_tail in Hu | done].
Qed.

Lemma codePointValue_bound c :
  scalar_chunk c → (JS.codePointValue c < 0x110000)%N.
Proof.
  destruct 1 as [u Hu Hs | hi lo Hhi Hlo]; cbn [JS.codePointValue].
  - rewrite Hs. unfold JS.is_code_unit in Hu. lia.
  - range_facts. lia.
Qed.

Lemma codePointValue_inj c1 c2 :
  scalar_chunk c1 → scalar_chunk c2 →
  JS.codePointValue c1 = JS.codePointValue c2 → c1 = c2.
Proof.
  destruct 1 as [u1 Hu1 Hs1 | hi1 lo1 Hhi1 Hlo1];
    destruct 1 as [u2 Hu2 Hs2 | hi2 lo2 Hhi2 Hlo2];
    cbn [JS.codePointValue]; rewrite ?Hs1, ?Hs2; intros Heq.
  - by subst.
  - range_facts. lia.
  - range_facts. lia.
  - range_facts. assert (hi1 = hi2 ∧ lo1 = lo2) as [-> ->] by lia. done.
Qed.

Lemma utf8Bytes_prefix_free a b x y :
  (a < 0x110000)%N → (b < 0x110000)%N →
  JS.utf8Bytes a ++ x = JS.utf8Bytes b ++ y → a = b ∧ x = y.
Proof.
  intros Ha Hb. unfold JS.utf8Bytes.
  destruct (a <? 0x80)%N eqn:Ha1; [|destruct (a <? 0x800)%N eqn:Ha2;
    [|destruct (a <? 0x10000)%N eqn:Ha3]];
  (destruct (b <? 0x80)%N eqn:Hb1; [|destruct (b <? 0x800)%N eqn:Hb2;
    [|destruct (b <? 0x10000)%N eqn:Hb3]]);
  cbn [app]; intros Heq; range_facts; injection Heq as Hhead Htail;
  first
    [ (* lengths differ: the first bytes tell the two apart *)
      exfalso; clear Htail; euclid
    | repeat match goal with
             | H : _ :: _ = _ :: _ |- _ => injection H as ? ?
             end;
      split; [euclid | congruence] ].
Qed.

Lemma utf8_chunks_inj (l1 l2 : list jsstring) :
  Forall scalar_chunk l1 → Forall scalar_chunk l2 →
  concat (map (λ c, JS.utf8Bytes (JS.codePointValue c)) l1)
  = concat (map (λ c, JS.utf8Bytes (JS.codePointValue c)) l2) →
  l1 = l2.
Proof.
  intros H1. revert l2.
  induction H1 as [|c1 l1 Hc1 _ IH]; intros l2 H2 Heq;
    destruct H2 as [|c2 l2 Hc2 H2]; cbn [map concat] in Heq.
  - done.
  - exfalso. unfold JS.utf8Bytes in Heq.
    repeat case_match; discriminate.
  - exfalso. unfold JS.utf8Bytes in Heq.
    repeat case_match; discriminate.
  - apply utf8Bytes_prefix_free in Heq as [Hcp Hrest];
      [|by apply codePointValue_bound..].
    f_equal; [by apply codePointValue_inj | by apply IH].
Qed.

Lemma utf8Encode_inj s1 s2 :
  wellFormed s1 → wellFormed s2 →
  JS.utf8Encode s1 = JS.utf8Encode s2 → s1 = s2.
Proof.
  intros Hw1 Hw2 Heq.
  rewrite <- (codePoints_concat s1), <- (codePoints_concat s2). f_equal.
  apply utf8_chunks_inj; [by apply wellFormed_chunks.. | done].
Qed.

(** Well-formed: plain text and a surrogate pair; not well-formed: a
    surrogate on its own. *)
Example wellFormed_examples :
  wellFormed (JS.lit "racecar") ∧ wellFormed grinning_face
  ∧ ¬ wellFormed [0xD800%N].
Proof.
  split; [|split].
  - split; [|done]. repeat constructor.
  - split; [|done]. repeat constructor.
  - by intros [_ ?].
Qed.

Section FingerprintProperties.
Context `{JS.UnicodeTables} `{JS.Sha256}.

(** C9 (amended). The fingerprint is a function of the content, the digest
    of its UTF-8 encoding: the same string always has the same fingerprint.
    For well-formed strings (no lone surrogate), equal fingerprints mean
    equal strings unless the digest itself collides on their two different
    encodings. *)
Theorem fingerprint_determined_by_utf8_encoding :
  (∀ s1 s2, s1 = s2 →
      Properties.sha256_hash (analyzeString s1)
      = Properties.sha256_hash (analyzeString s2))
  ∧ (∀ s, Properties.sha256_hash (analyzeString s)
          = JS.sha256_hex (JS.utf8Encode s))
  ∧ (∀ s1 s2, wellFormed s1 → wellFormed s2 →
      Properties.sha256_hash (analyzeString s1)
      = Properties.sha256_hash (analyzeString s2) →
      s1 = s2
      ∨ (JS.utf8Encode s1 ≠ JS.utf8Encode s2
         ∧ JS.sha256_hex (JS.utf8Encode s1)
           = JS.sha256_hex (JS.utf8Encode s2))).
Proof.
  split; [by intros s1 s2 ->|].
  split; [done|].
  intros s1 s2 Hw1 Hw2 Hh.
  destruct (decide (JS.utf8Encode s1 = JS.utf8Encode s2)) as [Heq|Hne].
  - left. by apply utf8Encode_inj.
  - right. by split.
Qed.

End FingerprintProperties.

(** C9, as stated, fails at the lone surrogate U+D800 and U+FFFD: both are
    hashed as the bytes EF BF BD, so the two strings share a fingerprint. *)
Lemma lone_surrogate_fingerprint_collision :
  fingerprints_collide [0xD800%N] [0xFFFD%N].
Proof.
  split; [done|]. intros U D.
  unfold analyzeString, computeHash. cbn [Properties.sha256_hash].
  f_equal.
Qed.
